(** * The dynamic form of [src/app/page.tsx]

    A shallow embedding of the [Form] component: its five pieces of React
    state, the static catalogue [apiResponses], and the three event handlers
    [handleFormTypeChange], [handleInputChange] (with [validateField] and
    [updateProgress]) and [handleSubmit], and what the returned JSX shows of
    the state.

    React semantics that the handlers depend on are modelled explicitly:
    - a handler is a closure over the state of the render it was created in,
      so every read of [fields], [formData], [errors] inside one handler
      invocation sees that snapshot, whatever setters were already called;
    - a setter call does not assign, it enqueues an update; the queue is
      applied, in call order, once the handler has returned.  [setX(v)]
      replaces the slot, [setX(f)] applies [f] to the pending value.

    JavaScript numbers are modelled as exact rationals extended with
    [Infinity] and [NaN]; binary64 rounding is not modelled.  Statements
    about the value of Progress allow for that rounding, and the exact
    numbers are compared with the binary64 computation at the end. *)

From Stdlib Require Import QArith Qabs Qreduction Qround Lqa.
From Stdlib Require Import Floats.SpecFloat.
From stdpp Require Import gmap strings list fin_maps.

Local Open Scope string_scope.

(** ** Data model *)

(** [interface Field] *)
Record Field := mkField {
  name : string;
  type : string;
  label : string;
  required : bool;
  options : option (list string)
}.

(** [type FormType] *)
Inductive FormType := userInformation | addressInformation | paymentInformation.

(** [interface FormData]: a JavaScript object used as a map from property
    name to value.  The declared value type is [string | number]; every
    value the component stores is a string (an [e.target.value] or an error
    message). *)
Abbreviation FormData := (gmap string string).

(** A JavaScript number as far as [progress] needs it: the quotient of two
    array lengths, times 100. *)
Inductive number :=
| Num (q : Q)
| Infinity
| NaN.

(** [a / b] for two array lengths. *)
Definition js_div (a b : nat) : number :=
  match b, a with
  | O, O => NaN
  | O, S _ => Infinity
  | S _, _ => Num (Qred (Z.of_nat a # Pos.of_nat b))
  end.

(** [x * 100] *)
Definition js_mul100 (x : number) : number :=
  match x with
  | Num q => Num (Qred (q * 100))
  | Infinity => Infinity
  | NaN => NaN
  end.

(** JavaScript truthiness of a property read [obj[key]] whose value, when
    present, is a string: [undefined] and [''] are falsy. *)
Definition truthy (v : option string) : bool :=
  match v with
  | Some s => negb (bool_decide (s = ""))
  | None => false
  end.

(** The component's state: the five [useState] slots. *)
Record State := mkState {
  fields : list Field;
  formData : FormData;
  errors : FormData;
  progress : number;
  message : string
}.

(** The state of the first render. *)
Definition initial : State :=
  {| fields := []; formData := ∅; errors := ∅; progress := Num 0; message := "" |}.

(** ** The catalogue *)

Definition apiResponses (t : FormType) : list Field :=
  match t with
  | userInformation =>
      [ mkField "firstName" "text" "First Name" true None;
        mkField "lastName" "text" "Last Name" true None;
        mkField "age" "number" "Age" false None ]
  | addressInformation =>
      [ mkField "street" "text" "Street" true None;
        mkField "city" "text" "City" true None;
        mkField "state" "dropdown" "State" true
          (Some ["California"; "Texas"; "New York"]);
        mkField "zipCode" "text" "Zip Code" false None ]
  | paymentInformation =>
      [ mkField "cardNumber" "text" "Card Number" true None;
        mkField "expiryDate" "date" "Expiry Date" true None;
        mkField "cvv" "password" "CVV" true None;
        mkField "cardholderName" "text" "Cardholder Name" true None ]
  end.

(** The property name of each catalogue entry. *)
Definition FormType_key (t : FormType) : string :=
  match t with
  | userInformation => "userInformation"
  | addressInformation => "addressInformation"
  | paymentInformation => "paymentInformation"
  end.

(** [apiResponses[formType]] for the string carried by the change event of
    the form-type [<select>]: the catalogue entry of that own property,
    [undefined] for any other string.  The select offers the three keys and
    the empty placeholder; names of properties inherited from
    [Object.prototype] are not among its option values and are read here as
    absent like any other string. *)
Definition apiResponses_get (formType : string) : option (list Field) :=
  if bool_decide (formType = "userInformation") then Some (apiResponses userInformation)
  else if bool_decide (formType = "addressInformation") then Some (apiResponses addressInformation)
  else if bool_decide (formType = "paymentInformation") then Some (apiResponses paymentInformation)
  else None.

(** ** Queued state updates *)

Inductive Update :=
| SetFields (v : list Field)
| SetFormData (v : FormData)
| SetErrors (v : FormData)
| ModErrors (f : FormData → FormData)
| SetProgress (v : number)
| SetMessage (v : string).

Definition apply_update (s : State) (u : Update) : State :=
  match u with
  | SetFields v => mkState v (formData s) (errors s) (progress s) (message s)
  | SetFormData v => mkState (fields s) v (errors s) (progress s) (message s)
  | SetErrors v => mkState (fields s) (formData s) v (progress s) (message s)
  | ModErrors f => mkState (fields s) (formData s) (f (errors s)) (progress s) (message s)
  | SetProgress v => mkState (fields s) (formData s) (errors s) v (message s)
  | SetMessage v => mkState (fields s) (formData s) (errors s) (progress s) v
  end.

(** Run a handler on the rendered state [s]: the handler reads [s] only, the
    updates it enqueued are then applied in order. *)
Definition dispatch (handler : State → list Update) (s : State) : State :=
  fold_left apply_update (handler s) s.

(** ** The handlers *)

(** [handleFormTypeChange], with [formType] the event's [e.target.value]. *)
Definition handleFormTypeChange (formType : string) (s : State) : list Update :=
  ([SetMessage ""; SetProgress (Num 0)] ++
   match bool_decide (formType = ""), apiResponses_get formType with
   | false, Some fs => [SetFields fs; SetFormData ∅; SetErrors ∅]
   | _, _ => []
   end)%list.

(** [fields.find((field) => field.name === name)] *)
Definition find_field (fs : list Field) (n : string) : option Field :=
  List.find (λ field, bool_decide (name field = n)) fs.

Definition required_message (field : Field) : string :=
  label field ++ " is required".

(** [Object.keys(obj)]; only the number of keys is ever used, so their
    order is left as the map gives it. *)
Definition Object_keys (obj : FormData) : list string :=
  (map_to_list obj).*1.

(** [fields.filter((field) => field.required).length] *)
Definition requiredFields (fs : list Field) : nat :=
  length (filter (λ field, required field) fs).

(** [Object.keys(formData).filter((key) => !newErrors[key]).length] *)
Definition completedFields (data newErrors : FormData) : nat :=
  length (filter (λ key, ¬ truthy (newErrors !! key)) (Object_keys data)).

(** [updateProgress(newErrors)] *)
Definition updateProgress (newErrors : FormData) (s : State) : list Update :=
  [SetProgress
     (js_mul100 (js_div (completedFields (formData s) newErrors)
                        (requiredFields (fields s))))].

(** The [newErrors] object built by [validateField]. *)
Definition validateField_newErrors (n value : string) (s : State) : FormData :=
  match find_field (fields s) n with
  | Some field =>
      if required field && bool_decide (value = "")
      then <[n := required_message field]> (errors s)
      else delete n (errors s)
  | None => delete n (errors s)
  end.

(** [validateField(name, value)] *)
Definition validateField (n value : string) (s : State) : list Update :=
  let newErrors := validateField_newErrors n value s in
  ([SetErrors newErrors] ++ updateProgress newErrors s)%list.

(** [handleInputChange], with [n] and [value] the event's [e.target.name]
    and [e.target.value]. *)
Definition handleInputChange (n value : string) (s : State) : list Update :=
  ([SetFormData (<[n := value]> (formData s))] ++ validateField n value s)%list.

(** [field.required && !formData[field.name]] *)
Definition missing (data : FormData) (field : Field) : bool :=
  required field && negb (truthy (data !! name field)).

(** The body of the [fields.forEach] callback of [handleSubmit]: the local
    [isValid] is threaded together with the updates enqueued so far. *)
Definition handleSubmit_each (s : State) (acc : bool * list Update) (field : Field)
  : bool * list Update :=
  if missing (formData s) field
  then (false,
        (acc.2 ++
         [ModErrors (λ prev, <[name field := required_message field]> prev)])%list)
  else acc.

(** [handleSubmit] *)
Definition handleSubmit (s : State) : list Update :=
  let '(isValid, queued) := fold_left (handleSubmit_each s) (fields s) (true, []) in
  (queued ++
   if isValid
   then [SetMessage "Form submitted successfully!"; SetFormData ∅; SetErrors ∅]
   else [SetMessage "Please fill out all required fields."])%list.

(** ** The operations of the controller *)

Definition selectFormType (formType : string) : State → State :=
  dispatch (handleFormTypeChange formType).

Definition setFieldValue (n value : string) : State → State :=
  dispatch (handleInputChange n value).

Definition submit : State → State :=
  dispatch handleSubmit.

(** ** Comparing numbers *)

(** [x <= y] on JavaScript numbers; every comparison with [NaN] is false. *)
Definition number_le (x y : number) : Prop :=
  match x, y with
  | Num a, Num b => (a <= b)%Q
  | Num _, Infinity => True
  | Infinity, Infinity => True
  | _, _ => False
  end.


(** ** The scenario of the specification *)

Module Scenario.
Definition selected : State := selectFormType "userInformation" initial.
Definition ann : State := setFieldValue "firstName" "Ann" selected.
Definition lee : State := setFieldValue "lastName" "Lee" ann.
Definition submitted : State := submit lee.
(** The age field filled in as well, then edited once more. *)
Definition aged : State := setFieldValue "age" "30" lee.
Definition aged_again : State := setFieldValue "age" "31" aged.
(** The payment form, untouched, and its rejected submission. *)
Definition payment : State := selectFormType "paymentInformation" initial.
Definition rejected : State := submit payment.
(** The last name entered and cleared again. *)
Definition lee_cleared : State := setFieldValue "lastName" "" lee.
End Scenario.

(** ** Notions used in the statements *)

(** The error map after the queued functional updates of a rejected
    submission, [queued] being the fields found missing, in order. *)
Definition submit_errors (queued : list Field) (prev : FormData) : FormData :=
  fold_left (λ e field, <[name field := required_message field]> e) queued prev.

(** Every required field of the active field-set has a non-empty entry in
    FormValues. *)
Definition all_required_filled (s : State) : Prop :=
  ∀ field, field ∈ fields s → required field = true →
    ∃ v, formData s !! name field = Some v ∧ v ≠ "".

(** The outcome the specification calls a successful submission. *)
Definition submit_succeeded (s' : State) : Prop :=
  message s' = "Form submitted successfully!" ∧ formData s' = ∅ ∧ errors s' = ∅.



(** The states the component can be in: the first render, followed by any
    number of form-type selections, input changes on a rendered field, and
    submissions. *)
Inductive reachable : State → Prop :=
| reachable_initial : reachable initial
| reachable_select formType s :
    reachable s → reachable (selectFormType formType s)
| reachable_input n value s :
    reachable s → n ∈ name <$> fields s → reachable (setFieldValue n value s)
| reachable_submit s :
    reachable s → reachable (submit s).

(** What holds of every reachable state. *)
Record invariant (s : State) : Prop := mkInvariant {
  inv_fields : fields s = [] ∨ ∃ t, fields s = apiResponses t;
  inv_values : ∀ k, is_Some (formData s !! k) → k ∈ name <$> fields s;
  inv_errors : ∀ k, is_Some (errors s !! k) → k ∈ name <$> fields s;
  inv_flagged : ∀ field, field ∈ fields s → required field = true →
    formData s !! name field = Some "" → truthy (errors s !! name field) = true
}.

(** Progress is current: it is the initial 0 or was written by a form-type
    selection or an input change, and no submission has succeeded since. *)
Inductive progress_current : State → Prop :=
| current_initial : progress_current initial
| current_select formType s :
    reachable s → progress_current (selectFormType formType s)
| current_input n value s :
    reachable s → n ∈ name <$> fields s →
    progress_current (setFieldValue n value s)
| current_rejected s :
    progress_current s → ¬ all_required_filled s → progress_current (submit s).

(** The stored Progress does not exceed what [updateProgress] would compute
    from the present FormValues and ValidationErrors. *)
Definition progress_bounded (s : State) : Prop :=
  number_le (progress s)
    (js_mul100 (js_div (completedFields (formData s) (errors s))
                       (requiredFields (fields s)))).

(** ** The rendered view *)

(** What the JSX returned by [Form] shows of the state.  Static parts (the
    heading, the form-type select with its fixed options, the submit button,
    class names) are left out. *)

(** [Math.round(x)]: the nearest integer, a tie going towards +∞. *)
Definition Math_round (x : number) : number :=
  match x with
  | Num q => Num (inject_Z (Qfloor (q + (1 # 2))))
  | Infinity => Infinity
  | NaN => NaN
  end.

(** [obj[key] || ''] *)
Definition or_empty (v : option string) : string :=
  match v with
  | Some x => if truthy v then x else ""
  | None => ""
  end.

(** [text && <p>{text}</p>]: the paragraph when [text] is truthy, nothing
    otherwise. *)
Definition and_paragraph (v : option string) : option string :=
  if truthy v then v else None.

(** The control of one field: a [<select>] whose options follow the
    placeholder, or an [<input>] of the field's type. *)
Inductive Control :=
| SelectControl (opts : list string)
| InputControl (input_type : string).

(** One [<div key={field.name}>] of the form. *)
Record FieldView := mkFieldView {
  view_name : string;
  view_label : string;
  view_marker : bool;
  view_control : Control;
  view_value : string;
  view_error : option string
}.

Record View := mkView {
  view_form : option (list FieldView);
  view_width : number;
  view_percent : number;
  view_message : option string
}.

(** The callback of [fields.map] in the JSX. *)
Definition render_field (s : State) (field : Field) : FieldView :=
  {| view_name := name field;
     view_label := label field;
     view_marker := required field;
     view_control :=
       if bool_decide (type field = "dropdown")
       then SelectControl (match options field with Some opts => opts | None => [] end)
       else InputControl (type field);
     view_value := or_empty (formData s !! name field);
     view_error := and_paragraph (errors s !! name field) |}.

(** The JSX returned by [Form]: the form when [fields.length > 0], the width
    of the progress bar in percent, the number of the "% completed" readout,
    and the status paragraph. *)
Definition render (s : State) : View :=
  {| view_form :=
       if bool_decide (0 < length (fields s))%nat
       then Some (render_field s <$> fields s)
       else None;
     view_width := progress s;
     view_percent := Math_round (progress s);
     view_message := and_paragraph (Some (message s)) |}.

(** Every entry of ValidationErrors is the message of a required field of
    the active field-set that carries the entry's name, and the value stored
    for that name is absent or empty. *)
Definition errors_justified (s : State) : Prop :=
  ∀ k m, errors s !! k = Some m →
    (∃ field, field ∈ fields s ∧ name field = k ∧ required field = true ∧
              m = required_message field) ∧
    (formData s !! k = None ∨ formData s !! k = Some "").

(** Progress is a finite, non-negative number, at most 100 times the number
    of fields over the number of required fields; it is 0 while no field-set
    is active. *)
Definition progress_in_range (s : State) : Prop :=
  ∃ q, progress s = Num q ∧ (0 <= q)%Q ∧
       (q * inject_Z (Z.of_nat (requiredFields (fields s)))
        <= 100 * inject_Z (Z.of_nat (length (fields s))))%Q ∧
       (fields s = [] → q = 0%Q).



(** [q] is [x] up to the rounding of [(c / r) * 100]: each of the two
    binary64 operations rounds to nearest, with a relative error of at most
    2^-53, so the result is within a relative error of 2^-51 of the exact
    quotient [x >= 0]. *)
Definition within_rounding (q x : Q) : Prop :=
  (Qabs (q - x) <= x * (1 # 2251799813685248))%Q.

(** ** The binary64 computation, for comparison *)

(** [(c / r) * 100] on IEEE 754 binary64 numbers, as a JavaScript engine
    computes it, with the operations of the Standard Library's reference
    implementation. *)
Definition binary64_of_nat (n : nat) : spec_float :=
  match n with
  | O => S754_zero false
  | S _ => binary_normalize 53 1024 (Z.of_nat n) 0 false
  end.

Definition binary64_progress (c r : nat) : spec_float :=
  SFmul 53 1024 (SFdiv 53 1024 (binary64_of_nat c) (binary64_of_nat r))
        (binary64_of_nat 100).

(** The rational a finite binary64 number stands for. *)
Definition binary64_value (x : spec_float) : option Q :=
  match x with
  | S754_zero _ => Some 0%Q
  | S754_finite sign m e =>
      Some ((if sign then -1 else 1) * inject_Z (Z.pos m) * Qpower 2 e)%Q
  | _ => None
  end.

(** * Properties *)

(** ** What each operation leaves behind *)

Lemma selectFormType_known formType fs s :
  apiResponses_get formType = Some fs →
  selectFormType formType s = mkState fs ∅ ∅ (Num 0) "".
Proof.
  intros Hget. unfold selectFormType, dispatch, handleFormTypeChange.
  rewrite Hget. case_bool_decide as Hempty; [|done].
  subst formType. discriminate Hget.
Qed.

Lemma selectFormType_unknown formType s :
  apiResponses_get formType = None →
  selectFormType formType s =
    mkState (fields s) (formData s) (errors s) (Num 0) "".
Proof.
  intros Hget. unfold selectFormType, dispatch, handleFormTypeChange.
  rewrite Hget. by case_bool_decide.
Qed.

Lemma apiResponses_get_key t :
  apiResponses_get (FormType_key t) = Some (apiResponses t).
Proof. by destruct t. Qed.

Lemma apiResponses_get_Some formType fs :
  apiResponses_get formType = Some fs → ∃ t, fs = apiResponses t.
Proof.
  unfold apiResponses_get. repeat case_bool_decide; intros ?; simplify_eq; eauto.
Qed.

Lemma setFieldValue_eq n value s :
  setFieldValue n value s =
    let newErrors := validateField_newErrors n value s in
    mkState (fields s) (<[n := value]> (formData s)) newErrors
      (js_mul100 (js_div (completedFields (formData s) newErrors)
                         (requiredFields (fields s))))
      (message s).
Proof. reflexivity. Qed.

Lemma filter_none_missing data fs :
  forallb (λ field, negb (missing data field)) fs = true →
  filter (λ field, missing data field) fs = [].
Proof.
  induction fs as [|field fs IH]; simpl; [done|].
  intros [Hm%negb_true_iff Hfs]%andb_true_iff.
  rewrite filter_cons, decide_False; [auto|]. rewrite Hm. exact id.
Qed.

Lemma handleSubmit_fold s fs isValid queued :
  fold_left (handleSubmit_each s) fs (isValid, queued) =
    (isValid && forallb (λ field, negb (missing (formData s) field)) fs,
     (queued ++
      map (λ field, ModErrors (λ prev, <[name field := required_message field]> prev))
          (filter (λ field, missing (formData s) field) fs))%list).
Proof.
  revert isValid queued. induction fs as [|field fs IH]; intros isValid queued.
  - cbn [fold_left forallb]. rewrite filter_nil. cbn [map].
    by rewrite andb_true_r, app_nil_r.
  - cbn [fold_left forallb]. unfold handleSubmit_each at 2.
    rewrite filter_cons. destruct (missing (formData s) field) eqn:Hm.
    + rewrite decide_True by exact I.
      cbn [snd map negb]. rewrite IH, andb_false_r.
      cbn [andb]. by rewrite <- app_assoc.
    + rewrite decide_False by exact id.
      rewrite IH. by cbn [negb andb].
Qed.

Lemma apply_ModErrors queued s :
  fold_left apply_update
    (map (λ field, ModErrors (λ prev, <[name field := required_message field]> prev))
         queued) s =
  mkState (fields s) (formData s) (submit_errors queued (errors s))
          (progress s) (message s).
Proof.
  revert s. induction queued as [|field queued IH]; intros s.
  - by destruct s.
  - simpl. by rewrite IH.
Qed.

Lemma submit_eq s :
  submit s =
    if forallb (λ field, negb (missing (formData s) field)) (fields s)
    then mkState (fields s) ∅ ∅ (progress s) "Form submitted successfully!"
    else mkState (fields s) (formData s)
           (submit_errors (filter (λ field, missing (formData s) field) (fields s))
                          (errors s))
           (progress s) "Please fill out all required fields.".
Proof.
  unfold submit, dispatch, handleSubmit.
  rewrite handleSubmit_fold. simpl.
  destruct (forallb _ (fields s)) eqn:Hall.
  - rewrite (filter_none_missing _ _ Hall). by destruct s.
  - rewrite fold_left_app, apply_ModErrors. done.
Qed.

Lemma truthy_Some_iff (v : option string) :
  truthy v = true ↔ ∃ x, v = Some x ∧ x ≠ "".
Proof.
  destruct v as [x|]; simpl.
  - rewrite negb_true_iff, bool_decide_eq_false. split.
    + intros Hx. by exists x.
    + by intros (y & [= <-] & Hy).
  - split; [done|]. by intros (y & Hy & _).
Qed.

Lemma truthy_false_iff (v : option string) :
  truthy v = false ↔ v = None ∨ v = Some "".
Proof.
  destruct v as [x|]; simpl.
  - rewrite negb_false_iff, bool_decide_eq_true. split.
    + intros ->. by right.
    + by intros [Hx|[= ->]].
  - split; [by left|done].
Qed.

Lemma missing_iff data field :
  missing data field = true ↔
  required field = true ∧ (data !! name field = None ∨ data !! name field = Some "").
Proof.
  unfold missing. by rewrite andb_true_iff, negb_true_iff, truthy_false_iff.
Qed.

Lemma all_required_filled_iff s :
  forallb (λ field, negb (missing (formData s) field)) (fields s) = true ↔
  all_required_filled s.
Proof.
  unfold all_required_filled. rewrite forallb_forall. split.
  - intros Hall field Hin%list_elem_of_In Hreq.
    specialize (Hall field Hin). apply negb_true_iff in Hall.
    unfold missing in Hall. rewrite Hreq in Hall. simpl in Hall.
    apply negb_false_iff in Hall. by apply truthy_Some_iff.
  - intros Hall field Hin%list_elem_of_In. apply negb_true_iff.
    unfold missing. destruct (required field) eqn:Hreq; [|done].
    apply negb_false_iff, truthy_Some_iff. auto.
Qed.

Lemma required_message_truthy field : truthy (Some (required_message field)) = true.
Proof.
  apply truthy_Some_iff. eexists; split; [done|].
  unfold required_message. destruct (label field); discriminate.
Qed.

Lemma submit_errors_lookup_fresh k queued prev :
  k ∉ name <$> queued → submit_errors queued prev !! k = prev !! k.
Proof.
  revert prev. induction queued as [|field queued IH]; intros prev Hk; [done|].
  rewrite fmap_cons, not_elem_of_cons in Hk. destruct Hk as [Hne Hk].
  cbn. unfold submit_errors in IH. rewrite IH by done.
  by rewrite lookup_insert_ne.
Qed.

Lemma submit_errors_lookup_queued k queued prev :
  k ∈ name <$> queued →
  ∃ g, g ∈ queued ∧ name g = k ∧
       submit_errors queued prev !! k = Some (required_message g).
Proof.
  revert prev. induction queued as [|field queued IH]; intros prev Hk.
  - by apply elem_of_nil in Hk.
  - destruct (decide (k ∈ name <$> queued)) as [Hin|Hout].
    + destruct (IH (<[name field := required_message field]> prev) Hin)
        as (g & Hg & Hname & Hlook).
      exists g. split; [by right|]. done.
    + rewrite fmap_cons, elem_of_cons in Hk. destruct Hk as [->|Hk]; [|done].
      exists field. split; [by left|]. split; [done|].
      cbn. fold (submit_errors queued (<[name field := required_message field]> prev)).
      rewrite submit_errors_lookup_fresh by done. apply lookup_insert_eq.
Qed.

Lemma submit_errors_lookup_Some k queued prev :
  is_Some (submit_errors queued prev !! k) →
  is_Some (prev !! k) ∨ k ∈ name <$> queued.
Proof.
  destruct (decide (k ∈ name <$> queued)) as [Hin|Hout]; [by right|].
  rewrite submit_errors_lookup_fresh by done. by left.
Qed.

(** ** Selecting a form type *)

(** C3. For every form type of the catalogue, selecting it makes the active
    field list exactly the catalogue's descriptors for that type, in
    catalogue order, and leaves FormValues empty, ValidationErrors empty,
    Progress 0 and the status message empty, whatever the state before. *)
Theorem selectFormType_catalog (t : FormType) (s : State) :
  let s' := selectFormType (FormType_key t) s in
  fields s' = apiResponses t ∧
  formData s' = ∅ ∧
  errors s' = ∅ ∧
  progress s' = Num 0 ∧
  message s' = "".
Proof.
  intros s'. subst s'.
  by rewrite (selectFormType_known _ _ s (apiResponses_get_key t)).
Qed.

(** C7, as amended. Selecting the empty placeholder or a string that is no
    key of the catalogue leaves the active field-set, FormValues and
    ValidationErrors in place, but still resets Progress to 0 and clears
    the status message. *)
Theorem selectFormType_unknown_frame (formType : string) (s : State) :
  formType = "" ∨ apiResponses_get formType = None →
  let s' := selectFormType formType s in
  fields s' = fields s ∧
  formData s' = formData s ∧
  errors s' = errors s ∧
  progress s' = Num 0 ∧
  message s' = "".
Proof.
  intros Hunknown s'. subst s'.
  assert (apiResponses_get formType = None) as Hget.
  { by destruct Hunknown as [->|?]. }
  by rewrite (selectFormType_unknown _ s Hget).
Qed.

Lemma selectFormType_unknown_frame_witness :
  let s' := selectFormType "" Scenario.rejected in
  fields s' = fields Scenario.rejected ∧
  formData s' = formData Scenario.rejected ∧
  errors s' = errors Scenario.rejected ∧
  progress s' = Num 0 ∧
  message s' = "".
Proof.
  apply (selectFormType_unknown_frame "" Scenario.rejected).
  left. reflexivity.
Defined.

(** C7, as stated, fails: after a rejected submission the placeholder
    option clears the failure message, and after edits it resets a Progress
    of 50 to 0, so the prior state is not left in place. *)
Lemma selectFormType_unknown_changes_state :
  message Scenario.rejected = "Please fill out all required fields." ∧
  message (selectFormType "" Scenario.rejected) = "" ∧
  selectFormType "" Scenario.rejected ≠ Scenario.rejected ∧
  progress Scenario.lee = Num 50 ∧
  progress (selectFormType "" Scenario.lee) = Num 0 ∧
  selectFormType "" Scenario.lee ≠ Scenario.lee.
Proof.
  assert (message Scenario.rejected = "Please fill out all required fields.")
    as Hmsg by (vm_compute; reflexivity).
  assert (progress Scenario.lee = Num 50) as Hprog by (vm_compute; reflexivity).
  split; [exact Hmsg|]. split; [reflexivity|]. split.
  { intros Heq. apply (f_equal message) in Heq. rewrite Hmsg in Heq.
    discriminate Heq. }
  split; [exact Hprog|]. split; [reflexivity|].
  intros Heq. apply (f_equal progress) in Heq. rewrite Hprog in Heq.
  discriminate Heq.
Qed.

(** ** Validating one field *)

Lemma find_field_Some fs n field :
  find_field fs n = Some field → field ∈ fs ∧ name field = n.
Proof.
  unfold find_field. intros [Hin Hname]%find_some.
  split; [by apply list_elem_of_In|]. by apply bool_decide_eq_true in Hname.
Qed.

Lemma find_field_None fs n :
  find_field fs n = None ↔ n ∉ name <$> fs.
Proof.
  unfold find_field. induction fs as [|field fs IH]; simpl.
  - split; [intros _; apply not_elem_of_nil|done].
  - rewrite not_elem_of_cons. case_bool_decide as Hname.
    + split; [done|]. by intros [Hne _].
    + rewrite IH. split; [by intros ?; split|by intros [_ ?]].
Qed.

(** With unique names, the descriptor found for a name of the field-set is
    the descriptor of the field-set that carries this name. *)
Lemma find_field_unique fs field :
  NoDup (name <$> fs) → field ∈ fs → find_field fs (name field) = Some field.
Proof.
  unfold find_field. induction fs as [|g fs IH]; intros Hnd Hin.
  - by apply elem_of_nil in Hin.
  - rewrite fmap_cons in Hnd. apply NoDup_cons in Hnd as [Hg Hnd].
    simpl. apply elem_of_cons in Hin as [->|Hin].
    + by rewrite bool_decide_eq_true_2.
    + rewrite bool_decide_eq_false_2; [by apply IH|].
      intros Heq. apply Hg. rewrite Heq. by apply list_elem_of_fmap_2.
Qed.

Lemma errors_setFieldValue n value s :
  errors (setFieldValue n value s) = validateField_newErrors n value s.
Proof. reflexivity. Qed.

Lemma errors_validateField n value s :
  errors (dispatch (validateField n value) s) = validateField_newErrors n value s.
Proof. reflexivity. Qed.

(** C4. Let [field] be a descriptor of the active field-set, whose names are
    unique.  If it is required, validating an empty value for its name
    stores the message "<label> is required", with its own label, under
    that name, and validating a non-empty value removes the name from
    ValidationErrors; if it is not required, validating any value removes
    the name.  The same holds for the errors left by [setFieldValue], which
    runs [validateField]. *)
Theorem validateField_required (s : State) (field : Field) (value : string) :
  NoDup (name <$> fields s) → field ∈ fields s →
  let s' := dispatch (validateField (name field) value) s in
  (required field = true → value = "" →
     errors s' !! name field = Some (label field ++ " is required")) ∧
  (required field = true → value ≠ "" → errors s' !! name field = None) ∧
  (required field = false → errors s' !! name field = None) ∧
  errors (setFieldValue (name field) value s) = errors s'.
Proof.
  intros Hnd Hin s'. subst s'.
  rewrite errors_setFieldValue, errors_validateField.
  unfold validateField_newErrors. rewrite (find_field_unique _ _ Hnd Hin).
  repeat split.
  - intros -> ->. simpl. apply lookup_insert_eq.
  - intros -> Hvalue. rewrite bool_decide_eq_false_2 by done.
    simpl. apply lookup_delete_eq.
  - intros ->. simpl. apply lookup_delete_eq.
Qed.

Lemma validateField_required_witness :
  errors (dispatch (validateField "lastName" "") Scenario.lee) !! "lastName" =
    Some "Last Name is required" ∧
  (errors Scenario.lee_cleared !! "lastName" = Some "Last Name is required" ∧
   errors (dispatch (validateField "lastName" "Lee") Scenario.lee_cleared) !! "lastName" =
     None) ∧
  errors (dispatch (validateField "age" "") Scenario.lee) !! "age" = None.
Proof.
  assert (NoDup (name <$> fields Scenario.lee)) as Hlee
    by (apply (bool_decide_unpack _); vm_compute; exact I).
  assert (NoDup (name <$> fields Scenario.lee_cleared)) as Hcleared
    by (apply (bool_decide_unpack _); vm_compute; exact I).
  assert (fields Scenario.lee = apiResponses userInformation) as Hf1
    by (vm_compute; reflexivity).
  assert (fields Scenario.lee_cleared = apiResponses userInformation) as Hf2
    by (vm_compute; reflexivity).
  assert (mkField "lastName" "text" "Last Name" true None ∈ fields Scenario.lee)
    as Hin1 by (rewrite Hf1; simpl; right; left).
  assert (mkField "lastName" "text" "Last Name" true None ∈ fields Scenario.lee_cleared)
    as Hin2 by (rewrite Hf2; simpl; right; left).
  assert (mkField "age" "number" "Age" false None ∈ fields Scenario.lee)
    as Hin3 by (rewrite Hf1; simpl; right; right; left).
  pose proof (validateField_required Scenario.lee _ "" Hlee Hin1) as Hempty.
  pose proof (validateField_required Scenario.lee_cleared _ "Lee" Hcleared Hin2)
    as Hfilled.
  pose proof (validateField_required Scenario.lee _ "" Hlee Hin3) as Hoptional.
  cbv zeta in Hempty, Hfilled, Hoptional.
  destruct Hempty as (Hempty & _ & _ & _).
  destruct Hfilled as (_ & Hfilled & _ & _).
  destruct Hoptional as (_ & _ & Hoptional & _).
  split; [|split; [split|]].
  - apply Hempty; reflexivity.
  - vm_compute. reflexivity.
  - apply Hfilled; [reflexivity|discriminate].
  - apply Hoptional. reflexivity.
Defined.

(** ** Submitting *)

Lemma submit_filled s :
  all_required_filled s →
  submit s = mkState (fields s) ∅ ∅ (progress s) "Form submitted successfully!".
Proof.
  intros Hall%all_required_filled_iff. by rewrite submit_eq, Hall.
Qed.

Lemma submit_not_filled s :
  ¬ all_required_filled s →
  submit s =
    mkState (fields s) (formData s)
      (submit_errors (filter (λ field, missing (formData s) field) (fields s))
                     (errors s))
      (progress s) "Please fill out all required fields.".
Proof.
  intros Hall. rewrite submit_eq.
  destruct (forallb _ (fields s)) eqn:Hforall; [|done].
  by apply all_required_filled_iff in Hforall.
Qed.

Lemma all_required_filled_dec s :
  all_required_filled s ∨ ¬ all_required_filled s.
Proof.
  destruct (forallb (λ field, negb (missing (formData s) field)) (fields s))
    eqn:Hforall.
  - left. by apply all_required_filled_iff.
  - right. intros Hall%all_required_filled_iff. congruence.
Qed.

(** C2. In every state, [submit] succeeds (success message, FormValues and
    ValidationErrors emptied) exactly when every required field of the
    active field-set has a non-empty entry in FormValues; otherwise it
    leaves FormValues unchanged, leaves under the name of every required
    field whose entry is absent or empty the "is required" message of a
    descriptor with that name, and sets the generic failure message. *)
Theorem submit_succeeds_iff_filled (s : State) :
  (submit_succeeded (submit s) ↔ all_required_filled s) ∧
  (¬ all_required_filled s →
   formData (submit s) = formData s ∧
   (∀ field, field ∈ fields s → required field = true →
      formData s !! name field = None ∨ formData s !! name field = Some "" →
      ∃ g, g ∈ fields s ∧ name g = name field ∧
           errors (submit s) !! name field = Some (required_message g)) ∧
   message (submit s) = "Please fill out all required fields.").
Proof.
  split.
  - split.
    + intros (Hmsg & _ & _).
      destruct (all_required_filled_dec s) as [Hall|Hnot]; [done|].
      rewrite (submit_not_filled _ Hnot) in Hmsg. discriminate Hmsg.
    + intros Hall. by rewrite (submit_filled _ Hall).
  - intros Hnot. rewrite (submit_not_filled _ Hnot).
    split; [done|]. split; [|done].
    intros field Hin Hreq Hempty. cbn [errors].
    set (queued := filter (λ field, missing (formData s) field) (fields s)).
    assert (name field ∈ name <$> queued) as Hqueued.
    { apply list_elem_of_fmap_2, list_elem_of_filter. split; [|done].
      apply Is_true_true, missing_iff. done. }
    destruct (submit_errors_lookup_queued _ _ (errors s) Hqueued)
      as (g & Hg & Hname & Hlook).
    exists g. apply list_elem_of_filter in Hg as [_ Hg]. done.
Qed.

Lemma submit_succeeds_iff_filled_witness :
  formData (submit Scenario.payment) = formData Scenario.payment ∧
  (∀ field, field ∈ fields Scenario.payment → required field = true →
     formData Scenario.payment !! name field = None ∨
     formData Scenario.payment !! name field = Some "" →
     ∃ g, g ∈ fields Scenario.payment ∧ name g = name field ∧
          errors (submit Scenario.payment) !! name field = Some (required_message g)) ∧
  message (submit Scenario.payment) = "Please fill out all required fields.".
Proof.
  apply (proj2 (submit_succeeds_iff_filled Scenario.payment)).
  intros Hall%all_required_filled_iff. vm_compute in Hall. discriminate Hall.
Defined.

(** C9. Whenever every required field of the active field-set has a
    non-empty entry in FormValues, [submit] sets the success message and
    empties FormValues and ValidationErrors, and the Progress value (like
    the field-set) is the one from before the call. *)
Theorem submit_keeps_progress (s : State) :
  all_required_filled s →
  progress (submit s) = progress s ∧
  fields (submit s) = fields s ∧
  submit_succeeded (submit s).
Proof.
  intros Hall. by rewrite (submit_filled _ Hall).
Qed.

Lemma submit_keeps_progress_witness :
  progress (submit Scenario.lee) = progress Scenario.lee ∧
  fields (submit Scenario.lee) = fields Scenario.lee ∧
  submit_succeeded (submit Scenario.lee).
Proof.
  apply (submit_keeps_progress Scenario.lee).
  apply all_required_filled_iff. vm_compute. reflexivity.
Defined.

(** [submit] never writes Progress, rejected or not. *)
Lemma progress_submit s : progress (submit s) = progress s.
Proof. rewrite submit_eq. by destruct (forallb _ _). Qed.

Lemma fields_submit s : fields (submit s) = fields s.
Proof. rewrite submit_eq. by destruct (forallb _ _). Qed.

(** ** The divisor of the progress computation *)

Lemma requiredFields_catalog t : (0 < requiredFields (apiResponses t))%nat.
Proof. destruct t; vm_compute; lia. Qed.

Lemma NoDup_catalog t : NoDup (name <$> apiResponses t).
Proof. destruct t; apply (bool_decide_unpack _); vm_compute; exact I. Qed.

(** C10. Every field-set of the catalogue has at least one required field;
    hence in any state whose active field-set is a catalogue entry the
    divisor of [updateProgress] is not zero, and the Progress an input
    change computes is a finite number, neither [Infinity] nor [NaN]. *)
Theorem catalog_required_nonzero (t : FormType) :
  (0 < requiredFields (apiResponses t))%nat ∧
  ∀ (s : State) (n value : string),
    fields s = apiResponses t →
    requiredFields (fields s) ≠ 0%nat ∧
    ∃ q, progress (setFieldValue n value s) = Num q.
Proof.
  pose proof (requiredFields_catalog t) as Hpos.
  split; [done|]. intros s n value Hfields.
  split; [rewrite Hfields; lia|].
  rewrite setFieldValue_eq. cbn [progress]. rewrite Hfields.
  destruct (requiredFields (apiResponses t)) as [|r]; [lia|].
  unfold js_div, js_mul100. eauto.
Qed.

Lemma catalog_required_nonzero_witness :
  requiredFields (fields Scenario.selected) ≠ 0%nat ∧
  ∃ q, progress (setFieldValue "firstName" "Ann" Scenario.selected) = Num q.
Proof.
  apply (proj2 (catalog_required_nonzero userInformation)
           Scenario.selected "firstName" "Ann").
  vm_compute. reflexivity.
Defined.

(** ** The scenario, step by step *)

(** C5, evaluated on the code. The field list, the absence of a firstName
    error, and the outcome of the submission are as the scenario says; the
    Progress values are not: [updateProgress] counts the keys of the
    [formData] of the render in which the handler was created, which does
    not yet hold the key being entered, so the first edit leaves Progress at
    0 (not 50) and the second at 50 (not 100). *)
Theorem scenario_evaluated :
  name <$> fields Scenario.selected = ["firstName"; "lastName"; "age"] ∧
  errors Scenario.ann !! "firstName" = None ∧
  progress Scenario.ann = Num 0 ∧
  progress Scenario.lee = Num 50 ∧
  message Scenario.submitted = "Form submitted successfully!" ∧
  formData Scenario.submitted = ∅ ∧
  errors Scenario.submitted = ∅.
Proof. vm_compute. repeat split; reflexivity. Qed.

(** ** Counting completed fields *)

Lemma length_filter_le {A} (P Q : A → Prop)
    `{∀ x, Decision (P x)} `{∀ x, Decision (Q x)} (l : list A) :
  (∀ x, x ∈ l → P x → Q x) →
  (length (filter P l) ≤ length (filter Q l))%nat.
Proof.
  induction l as [|x l IH]; intros HPQ; [done|].
  assert (length (filter P l) ≤ length (filter Q l))%nat as Hl.
  { apply IH. intros y Hy. apply HPQ. by right. }
  rewrite !filter_cons. destruct (decide (P x)) as [HP|HP].
  - rewrite decide_True by (apply HPQ; [by left|done]). simpl. lia.
  - destruct (decide (Q x)); simpl; lia.
Qed.

Lemma elem_of_Object_keys (data : FormData) k :
  k ∈ Object_keys data ↔ is_Some (data !! k).
Proof.
  unfold Object_keys. rewrite list_elem_of_fmap. split.
  - intros ([k' v] & -> & Hin%elem_of_map_to_list). by exists v.
  - intros [v Hv]. exists (k, v). split; [done|]. by apply elem_of_map_to_list.
Qed.

Lemma Object_keys_insert_fresh (data : FormData) n value :
  data !! n = None → Object_keys (<[n := value]> data) ≡ₚ n :: Object_keys data.
Proof.
  intros Hn. unfold Object_keys. by rewrite (map_to_list_insert _ _ _ Hn).
Qed.

Lemma Object_keys_insert_present (data : FormData) n value :
  is_Some (data !! n) → Object_keys (<[n := value]> data) ≡ₚ Object_keys data.
Proof.
  intros [old Hold]. unfold Object_keys.
  rewrite <- (map_to_list_delete data n old Hold).
  rewrite <- insert_delete_eq.
  by rewrite map_to_list_insert by apply lookup_delete_eq.
Qed.

(** Editing a field that already has an entry does not change the count. *)
Lemma completedFields_insert_present data newErrors n value :
  is_Some (data !! n) →
  completedFields (<[n := value]> data) newErrors = completedFields data newErrors.
Proof.
  intros Hn. unfold completedFields.
  by rewrite (Object_keys_insert_present _ _ _ Hn).
Qed.

(** A new entry can only add to the count. *)
Lemma completedFields_insert_le data newErrors n value :
  (completedFields data newErrors ≤ completedFields (<[n := value]> data) newErrors)%nat.
Proof.
  destruct (data !! n) as [old|] eqn:Hn.
  - by rewrite completedFields_insert_present.
  - unfold completedFields. rewrite (Object_keys_insert_fresh _ _ _ Hn).
    rewrite filter_cons. case_decide; simpl; lia.
Qed.

(** The count can only grow when, on the keys counted, no error appears. *)
Lemma completedFields_errors_le data e e' :
  (∀ k, is_Some (data !! k) → truthy (e' !! k) = true → truthy (e !! k) = true) →
  (completedFields data e ≤ completedFields data e')%nat.
Proof.
  intros Hle. unfold completedFields. apply length_filter_le.
  intros k Hk%elem_of_Object_keys Hfalsy Htruthy. apply Hfalsy.
  apply Is_true_true, Hle; [done|]. by apply Is_true_true.
Qed.

(** ** The number computed by [updateProgress] *)

Lemma js_progress_value (c r : nat) :
  (0 < r)%nat →
  ∃ q, js_mul100 (js_div c r) = Num q ∧
       (q == 100 * inject_Z (Z.of_nat c) / inject_Z (Z.of_nat r))%Q ∧
       (0 <= q)%Q.
Proof.
  intros Hr. destruct r as [|r]; [lia|].
  unfold js_div, js_mul100. eexists. split; [done|].
  assert (Qred (Qred (Z.of_nat c # Pos.of_nat (S r)) * 100) ==
          100 * inject_Z (Z.of_nat c) / inject_Z (Z.of_nat (S r)))%Q as Heq.
  { rewrite !Qred_correct.
    rewrite (Qmake_Qdiv (Z.of_nat c) (Pos.of_nat (S r))).
    replace (Z.pos (Pos.of_nat (S r))) with (Z.of_nat (S r)) by lia.
    field. unfold inject_Z, Qeq. simpl. lia. }
  split; [done|]. rewrite Heq.
  apply Qle_shift_div_l.
  - unfold inject_Z, Qlt. simpl. lia.
  - rewrite Qmult_0_l. unfold inject_Z, Qle. simpl. lia.
Qed.

Lemma js_progress_le (c c' r : nat) :
  (0 < r)%nat → (c ≤ c')%nat →
  number_le (js_mul100 (js_div c r)) (js_mul100 (js_div c' r)).
Proof.
  intros Hr Hc. destruct r as [|r]; [lia|].
  unfold js_div, js_mul100, number_le. rewrite !Qred_correct.
  apply Qmult_le_compat_r; [|done].
  unfold Qle. simpl. nia.
Qed.

Lemma js_progress_nonneg (c r : nat) :
  (0 < r)%nat → number_le (Num 0) (js_mul100 (js_div c r)).
Proof.
  intros Hr. destruct (js_progress_value c r Hr) as (q & -> & _ & Hq). done.
Qed.

(** ** Reachable states *)

Lemma invariant_NoDup s : invariant s → NoDup (name <$> fields s).
Proof.
  intros [[->|[t ->]] _ _ _]; [constructor|apply NoDup_catalog].
Qed.

Lemma invariant_required s n :
  invariant s → n ∈ name <$> fields s → (0 < requiredFields (fields s))%nat.
Proof.
  intros [[Hnil|[t ->]] _ _ _] Hn; [|apply requiredFields_catalog].
  rewrite Hnil in Hn. by apply elem_of_nil in Hn.
Qed.

Lemma validateField_newErrors_ne n value s k :
  k ≠ n → validateField_newErrors n value s !! k = errors s !! k.
Proof.
  intros Hk. unfold validateField_newErrors.
  destruct (find_field (fields s) n) as [field|];
    [destruct (required field && bool_decide (value = ""))|];
    by rewrite ?lookup_insert_ne, ?lookup_delete_ne.
Qed.

Lemma validateField_newErrors_Some n value s k :
  is_Some (validateField_newErrors n value s !! k) →
  k = n ∨ is_Some (errors s !! k).
Proof.
  destruct (decide (k = n)) as [->|Hk]; [by left|].
  rewrite validateField_newErrors_ne by done. by right.
Qed.

Lemma validateField_newErrors_nonempty n value s :
  value ≠ "" → validateField_newErrors n value s = delete n (errors s).
Proof.
  intros Hvalue. unfold validateField_newErrors.
  destruct (find_field (fields s) n) as [field|]; [|done].
  by rewrite bool_decide_eq_false_2, andb_false_r.
Qed.

Lemma invariant_initial : invariant initial.
Proof.
  split; simpl.
  - by left.
  - intros k [v Hv]. by rewrite lookup_empty in Hv.
  - intros k [v Hv]. by rewrite lookup_empty in Hv.
  - intros field Hin. by apply elem_of_nil in Hin.
Qed.

Lemma invariant_selectFormType formType s :
  invariant s → invariant (selectFormType formType s).
Proof.
  intros [Hf Hv He Hfl].
  destruct (apiResponses_get formType) as [fs|] eqn:Hget.
  - rewrite (selectFormType_known _ _ _ Hget).
    apply apiResponses_get_Some in Hget as [t ->]. split; simpl.
    + right. by exists t.
    + intros k [v Hk]. by rewrite lookup_empty in Hk.
    + intros k [v Hk]. by rewrite lookup_empty in Hk.
    + intros field _ _ Hk. by rewrite lookup_empty in Hk.
  - rewrite (selectFormType_unknown _ _ Hget). by split.
Qed.

Lemma invariant_setFieldValue n value s :
  invariant s → n ∈ name <$> fields s → invariant (setFieldValue n value s).
Proof.
  intros Hinv Hn. pose proof (invariant_NoDup _ Hinv) as Hnd.
  destruct Hinv as [Hf Hv He Hfl].
  rewrite setFieldValue_eq. split; cbn [fields formData errors].
  - done.
  - intros k Hk. destruct (decide (k = n)) as [->|Hne]; [done|].
    rewrite lookup_insert_ne in Hk by done. by apply Hv.
  - intros k [->|Hk]%validateField_newErrors_Some; [done|by apply He].
  - intros field Hin Hreq Hempty.
    destruct (decide (name field = n)) as [<-|Hne].
    + rewrite lookup_insert_eq in Hempty. injection Hempty as ->.
      unfold validateField_newErrors.
      rewrite (find_field_unique _ _ Hnd Hin), Hreq. simpl.
      rewrite lookup_insert_eq. apply required_message_truthy.
    + rewrite lookup_insert_ne in Hempty by done.
      rewrite validateField_newErrors_ne by done. by apply Hfl.
Qed.

Lemma invariant_submit s : invariant s → invariant (submit s).
Proof.
  intros [Hf Hv He Hfl].
  destruct (all_required_filled_dec s) as [Hall|Hnot].
  - rewrite (submit_filled _ Hall). split; cbn [fields formData errors].
    + done.
    + intros k [v Hk]. by rewrite lookup_empty in Hk.
    + intros k [v Hk]. by rewrite lookup_empty in Hk.
    + intros field _ _ Hk. by rewrite lookup_empty in Hk.
  - rewrite (submit_not_filled _ Hnot). split; cbn [fields formData errors].
    + done.
    + done.
    + intros k [Hk|Hk]%submit_errors_lookup_Some; [by apply He|].
      apply list_elem_of_fmap in Hk as (g & -> & Hg).
      apply list_elem_of_filter in Hg as [_ Hg]. by apply list_elem_of_fmap_2.
    + intros field Hin Hreq Hempty.
      set (queued := filter (λ field, missing (formData s) field) (fields s)).
      destruct (decide (name field ∈ name <$> queued)) as [Hq|Hq].
      * destruct (submit_errors_lookup_queued _ _ (errors s) Hq)
          as (g & _ & _ & ->).
        apply required_message_truthy.
      * rewrite submit_errors_lookup_fresh by done. by apply Hfl.
Qed.

Lemma reachable_invariant s : reachable s → invariant s.
Proof.
  induction 1 as [|formType s _ IH|n value s _ IH Hn|s _ IH].
  - apply invariant_initial.
  - by apply invariant_selectFormType.
  - by apply invariant_setFieldValue.
  - by apply invariant_submit.
Qed.

(** C6. In every state reachable from the initial state by form-type
    selections, input changes on names of the active field-set, and
    submissions, every key of FormValues and every key of ValidationErrors
    is the name of a field of the active field-set. *)
Theorem keys_within_field_set (s : State) :
  reachable s →
  (∀ k, k ∈ dom (formData s) → k ∈ name <$> fields s) ∧
  (∀ k, k ∈ dom (errors s) → k ∈ name <$> fields s).
Proof.
  intros [_ Hv He _]%reachable_invariant.
  split; intros k Hk%elem_of_dom; auto.
Qed.

Lemma reachable_lee : reachable Scenario.lee.
Proof.
  apply reachable_input; [apply reachable_input|].
  - apply reachable_select, reachable_initial.
  - apply (bool_decide_unpack _). vm_compute. exact I.
  - apply (bool_decide_unpack _). vm_compute. exact I.
Qed.

Lemma keys_within_field_set_witness :
  (∀ k, k ∈ dom (formData Scenario.lee) → k ∈ name <$> fields Scenario.lee) ∧
  (∀ k, k ∈ dom (errors Scenario.lee) → k ∈ name <$> fields Scenario.lee).
Proof.
  apply (keys_within_field_set Scenario.lee).
  apply reachable_input; [apply reachable_input|].
  - apply reachable_select, reachable_initial.
  - apply (bool_decide_unpack _). vm_compute. exact I.
  - apply (bool_decide_unpack _). vm_compute. exact I.
Defined.

(** ** The Progress value *)

(** What an input change writes to Progress: the count is taken over the
    keys [formData] had in the render the handler belongs to, against the
    errors just computed. *)
Lemma progress_setFieldValue n value s :
  progress (setFieldValue n value s) =
    js_mul100 (js_div (completedFields (formData s) (errors (setFieldValue n value s)))
                      (requiredFields (fields s))).
Proof. reflexivity. Qed.






(** ** Monotonicity *)

Lemma progress_current_reachable s : progress_current s → reachable s.
Proof.
  induction 1; eauto using reachable.
Qed.

Lemma number_le_trans x y z : number_le x y → number_le y z → number_le x z.
Proof.
  destruct x, y, z; simpl; try done. apply Qle_trans.
Qed.

Lemma progress_current_bounded s n :
  progress_current s → n ∈ name <$> fields s → progress_bounded s.
Proof.
  intros Hcur. revert n.
  induction Hcur as [|formType s Hs|m value s Hs Hm|s Hcur IH Hnot]; intros n Hn.
  - by apply elem_of_nil in Hn.
  - pose proof (invariant_selectFormType formType _ (reachable_invariant _ Hs))
      as Hinv.
    pose proof (invariant_required _ _ Hinv Hn) as Hreq.
    assert (progress (selectFormType formType s) = Num 0) as Hzero.
    { destruct (apiResponses_get formType) as [fs|] eqn:Hget.
      - by rewrite (selectFormType_known _ _ _ Hget).
      - by rewrite (selectFormType_unknown _ _ Hget). }
    unfold progress_bounded. rewrite Hzero. by apply js_progress_nonneg.
  - pose proof (invariant_required _ _ (reachable_invariant _ Hs) Hm) as Hreq.
    unfold progress_bounded. rewrite progress_setFieldValue.
    apply js_progress_le; [done|]. apply completedFields_insert_le.
  - rewrite fields_submit in Hn. specialize (IH n Hn).
    pose proof (reachable_invariant _ (progress_current_reachable _ Hcur)) as Hinv.
    pose proof (invariant_required _ _ Hinv Hn) as Hreq.
    unfold progress_bounded in *. rewrite progress_submit, fields_submit.
    eapply number_le_trans; [exact IH|].
    apply js_progress_le; [done|].
    rewrite (submit_not_filled _ Hnot). cbn [formData errors].
    apply completedFields_errors_le. intros k [v Hv] Htruthy.
    set (queued := filter (λ field, missing (formData s) field) (fields s))
      in *.
    destruct (decide (k ∈ name <$> queued)) as [Hq|Hq].
    + apply list_elem_of_fmap in Hq as (g & -> & Hg).
      apply list_elem_of_filter in Hg as [Hmiss Hg].
      apply Is_true_true, missing_iff in Hmiss as [Hgreq [Hnone|Hempty]].
      * congruence.
      * by apply (inv_flagged _ Hinv).
    + by rewrite submit_errors_lookup_fresh in Htruthy.
Qed.

(** C8, as amended. As long as no submission has succeeded since Progress
    was last written, an input change that gives a field of the active
    field-set a non-empty value never decreases Progress; in particular
    when the field is required and was empty or flagged before. *)
Theorem progress_monotone (s : State) (n value : string) :
  progress_current s →
  n ∈ name <$> fields s →
  value ≠ "" →
  number_le (progress s) (progress (setFieldValue n value s)).
Proof.
  intros Hcur Hn Hvalue.
  pose proof (progress_current_bounded _ _ Hcur Hn) as Hbound.
  pose proof (reachable_invariant _ (progress_current_reachable _ Hcur)) as Hinv.
  pose proof (invariant_required _ _ Hinv Hn) as Hreq.
  eapply number_le_trans; [exact Hbound|].
  rewrite progress_setFieldValue, errors_setFieldValue.
  rewrite validateField_newErrors_nonempty by done.
  apply js_progress_le; [done|]. apply completedFields_errors_le.
  intros k _. destruct (decide (k = n)) as [->|Hne].
  - by rewrite lookup_delete_eq.
  - by rewrite lookup_delete_ne.
Qed.

Lemma progress_monotone_witness :
  number_le (progress Scenario.ann)
            (progress (setFieldValue "lastName" "Lee" Scenario.ann)).
Proof.
  apply (progress_monotone Scenario.ann "lastName" "Lee").
  - apply current_input.
    + apply reachable_select, reachable_initial.
    + apply (bool_decide_unpack _). vm_compute. exact I.
  - apply (bool_decide_unpack _). vm_compute. exact I.
  - discriminate.
Defined.

(** C8, as stated, fails.  The submission of the scenario succeeds and
    keeps Progress at 50 while emptying FormValues; the next edit gives the
    required, now empty, firstName field a non-empty value and writes 0. *)
Lemma progress_decreases_after_submit :
  reachable Scenario.submitted ∧
  find_field (fields Scenario.submitted) "firstName" =
    Some (mkField "firstName" "text" "First Name" true None) ∧
  formData Scenario.submitted !! "firstName" = None ∧
  progress Scenario.submitted = Num 50 ∧
  progress (setFieldValue "firstName" "Ann" Scenario.submitted) = Num 0 ∧
  ¬ number_le (progress Scenario.submitted)
              (progress (setFieldValue "firstName" "Ann" Scenario.submitted)).
Proof.
  assert (progress Scenario.submitted = Num 50) as Hbefore
    by (vm_compute; reflexivity).
  assert (progress (setFieldValue "firstName" "Ann" Scenario.submitted) = Num 0)
    as Hafter by (vm_compute; reflexivity).
  split; [apply reachable_submit, reachable_lee|].
  split; [vm_compute; reflexivity|]. split; [vm_compute; reflexivity|].
  split; [exact Hbefore|]. split; [exact Hafter|].
  rewrite Hbefore, Hafter. simpl. intros Hle. by apply Hle.
Qed.

(** * Further properties of the handlers and of the view *)

(** ** Input changes *)

(** X1. An input change stores the value under the field's name and touches
    nothing else but that name's error and Progress: every other entry of
    FormValues and of ValidationErrors, the field-set and the status message
    are as before. *)
Theorem setFieldValue_frame (s : State) (n value : string) :
  let s' := setFieldValue n value s in
  formData s' !! n = Some value ∧
  (∀ k, k ≠ n → formData s' !! k = formData s !! k) ∧
  (∀ k, k ≠ n → errors s' !! k = errors s !! k) ∧
  fields s' = fields s ∧
  message s' = message s.
Proof.
  intros s'. subst s'. rewrite setFieldValue_eq. cbn.
  split; [apply lookup_insert_eq|].
  split; [intros k Hk; by apply lookup_insert_ne|].
  split; [|done]. intros k Hk. by apply validateField_newErrors_ne.
Qed.

(** X2. For a name that no field of the active field-set carries,
    [fields.find] returns nothing and the input change never flags it: any
    error stored under that name is removed, whatever the value. *)
Theorem setFieldValue_unknown_name (s : State) (n value : string) :
  n ∉ name <$> fields s →
  errors (setFieldValue n value s) = delete n (errors s) ∧
  errors (setFieldValue n value s) !! n = None.
Proof.
  intros Hn%find_field_None. rewrite errors_setFieldValue.
  unfold validateField_newErrors. rewrite Hn.
  split; [done|apply lookup_delete_eq].
Qed.

Lemma setFieldValue_unknown_name_witness :
  errors (setFieldValue "nickname" "" Scenario.selected) =
    delete "nickname" (errors Scenario.selected) ∧
  errors (setFieldValue "nickname" "" Scenario.selected) !! "nickname" = None.
Proof.
  apply (setFieldValue_unknown_name Scenario.selected "nickname" "").
  apply (bool_decide_unpack _). vm_compute. exact I.
Defined.



(** ** Form-type changes *)

(** X4. Selecting the same option twice in a row is the same as selecting
    it once, for a catalogue key as for any other string. *)
Theorem selectFormType_idempotent (formType : string) (s : State) :
  selectFormType formType (selectFormType formType s) = selectFormType formType s.
Proof.
  destruct (apiResponses_get formType) as [fs|] eqn:Hget.
  - by rewrite !(selectFormType_known _ _ _ Hget).
  - by rewrite !(selectFormType_unknown _ _ Hget).
Qed.

(** ** Submissions *)

Lemma submit_errors_lookup_indep k queued e e' :
  k ∈ name <$> queued →
  submit_errors queued e !! k = submit_errors queued e' !! k.
Proof.
  revert e e'. induction queued as [|field queued IH]; intros e e' Hk.
  - by apply elem_of_nil in Hk.
  - cbn. fold (submit_errors queued (<[name field := required_message field]> e)).
    fold (submit_errors queued (<[name field := required_message field]> e')).
    destruct (decide (k ∈ name <$> queued)) as [Hin|Hout]; [by apply IH|].
    rewrite !submit_errors_lookup_fresh by done.
    rewrite fmap_cons, elem_of_cons in Hk. destruct Hk as [->|Hk]; [|done].
    by rewrite !lookup_insert_eq.
Qed.

Lemma submit_errors_idempotent queued e :
  submit_errors queued (submit_errors queued e) = submit_errors queued e.
Proof.
  apply map_eq. intros k.
  destruct (decide (k ∈ name <$> queued)) as [Hin|Hout].
  - by apply submit_errors_lookup_indep.
  - by rewrite submit_errors_lookup_fresh.
Qed.

Lemma NoDup_name_inj fs f g :
  NoDup (name <$> fs) → f ∈ fs → g ∈ fs → name f = name g → f = g.
Proof.
  intros Hnd Hf Hg Hname.
  pose proof (find_field_unique _ _ Hnd Hf) as Hff.
  pose proof (find_field_unique _ _ Hnd Hg) as Hfg.
  rewrite Hname in Hff. congruence.
Qed.

(** X5. A rejected submission repeated changes nothing: the second call
    finds the same fields missing and stores the same messages again. *)
Theorem submit_rejected_idempotent (s : State) :
  ¬ all_required_filled s → submit (submit s) = submit s.
Proof.
  intros Hnot.
  assert (¬ all_required_filled (submit s)) as Hnot'.
  { rewrite (submit_not_filled _ Hnot). exact Hnot. }
  rewrite (submit_not_filled _ Hnot').
  rewrite (submit_not_filled _ Hnot). cbn [fields formData errors progress].
  by rewrite submit_errors_idempotent.
Qed.

Lemma submit_rejected_idempotent_witness :
  submit (submit Scenario.payment) = submit Scenario.payment.
Proof.
  apply (submit_rejected_idempotent Scenario.payment).
  intros Hall%all_required_filled_iff. vm_compute in Hall. discriminate Hall.
Defined.

Lemma not_filled_blank s :
  formData s = ∅ → (0 < requiredFields (fields s))%nat → ¬ all_required_filled s.
Proof.
  intros Hblank Hreq Hall. unfold requiredFields in Hreq.
  destruct (filter (λ field, required field) (fields s)) as [|field l] eqn:Hfilter;
    [simpl in Hreq; lia|].
  assert (field ∈ filter (λ field, required field) (fields s)) as Hin
    by (rewrite Hfilter; by left).
  apply list_elem_of_filter in Hin as [Hr Hin].
  destruct (Hall field Hin (Is_true_true_1 _ Hr)) as (v & Hv & _).
  rewrite Hblank, lookup_empty in Hv. discriminate Hv.
Qed.

Lemma submit_blank s :
  NoDup (name <$> fields s) → (0 < requiredFields (fields s))%nat →
  formData s = ∅ → errors s = ∅ →
  submit s =
    mkState (fields s) ∅ (errors (submit s)) (progress s)
            "Please fill out all required fields." ∧
  ∀ k m, errors (submit s) !! k = Some m ↔
         ∃ field, field ∈ fields s ∧ required field = true ∧
                  name field = k ∧ m = required_message field.
Proof.
  intros Hnd Hpos Hblank Herr.
  pose proof (not_filled_blank s Hblank Hpos) as Hnot.
  rewrite (submit_not_filled _ Hnot). cbn [errors].
  rewrite Hblank, Herr. split; [done|].
  set (queued := filter (λ field, missing ∅ field) (fields s)).
  intros k m. split.
  - intros Hk.
    destruct (decide (k ∈ name <$> queued)) as [Hin|Hout].
    + destruct (submit_errors_lookup_queued _ _ ∅ Hin) as (g & Hg & Hname & Hlook).
      apply list_elem_of_filter in Hg as [Hmiss Hg].
      apply Is_true_true, missing_iff in Hmiss as [Hreq _].
      exists g. rewrite Hlook in Hk. injection Hk as <-. done.
    + rewrite submit_errors_lookup_fresh, lookup_empty in Hk by done.
      discriminate Hk.
  - intros (field & Hin & Hreq & <- & ->).
    assert (field ∈ queued) as Hq.
    { apply list_elem_of_filter. split; [|done].
      apply Is_true_true, missing_iff. split; [done|]. left. apply lookup_empty. }
    destruct (submit_errors_lookup_queued _ _ ∅ (list_elem_of_fmap_2 name _ _ Hq))
      as (g & Hg & Hname & Hlook).
    apply list_elem_of_filter in Hg as [_ Hg].
    assert (field = g) as ->
      by exact (NoDup_name_inj _ _ _ Hnd Hin Hg (eq_sym Hname)).
    exact Hlook.
Qed.

(** X6. Submitting a catalogue form that has no values and no errors yet,
    as it is right after its selection, is rejected, and afterwards
    ValidationErrors holds exactly one entry per required field of the
    field-set, the field's "<label> is required" message; fields that are
    not required get none.  FormValues stays empty and Progress is kept. *)
Theorem submit_blank_form (t : FormType) (s : State) :
  fields s = apiResponses t → formData s = ∅ → errors s = ∅ →
  let s' := submit s in
  message s' = "Please fill out all required fields." ∧
  formData s' = ∅ ∧
  progress s' = progress s ∧
  ∀ k m, errors s' !! k = Some m ↔
         ∃ field, field ∈ apiResponses t ∧ required field = true ∧
                  name field = k ∧ m = label field ++ " is required".
Proof.
  intros Hfields Hblank Herr s'. subst s'.
  destruct (submit_blank s) as [Heq Hlook]; try done.
  - rewrite Hfields. apply NoDup_catalog.
  - rewrite Hfields. apply requiredFields_catalog.
  - rewrite Hfields in Hlook. split; [by rewrite Heq|].
    split; [by rewrite Heq|]. split; [by rewrite Heq|]. exact Hlook.
Qed.

Lemma submit_blank_form_witness :
  let s' := submit Scenario.payment in
  message s' = "Please fill out all required fields." ∧
  formData s' = ∅ ∧
  progress s' = progress Scenario.payment ∧
  ∀ k m, errors s' !! k = Some m ↔
         ∃ field, field ∈ apiResponses paymentInformation ∧ required field = true ∧
                  name field = k ∧ m = label field ++ " is required".
Proof.
  apply (submit_blank_form paymentInformation Scenario.payment);
    vm_compute; reflexivity.
Defined.

(** X7. After a successful submission of a catalogue form, submitting again
    at once is rejected: the first call emptied FormValues, so the second
    flags every required field and replaces the success message; Progress
    is still the one from before the first call. *)
Theorem submit_after_success_rejected (t : FormType) (s : State) :
  fields s = apiResponses t → all_required_filled s →
  let s'' := submit (submit s) in
  message (submit s) = "Form submitted successfully!" ∧
  message s'' = "Please fill out all required fields." ∧
  progress s'' = progress s ∧
  ∀ field, field ∈ apiResponses t → required field = true →
           errors s'' !! name field = Some (label field ++ " is required").
Proof.
  intros Hfields Hall s''. subst s''.
  rewrite (submit_filled _ Hall).
  set (s1 := mkState (fields s) ∅ ∅ (progress s) "Form submitted successfully!").
  destruct (submit_blank s1) as [Heq Herr]; try done.
  - change (fields s1) with (fields s). rewrite Hfields. apply NoDup_catalog.
  - change (fields s1) with (fields s). rewrite Hfields.
    apply requiredFields_catalog.
  - split; [done|]. split; [by rewrite Heq|]. split; [by rewrite Heq|].
    intros field Hin Hreq. apply Herr. exists field.
    change (fields s1) with (fields s). by rewrite Hfields.
Qed.

Lemma submit_after_success_rejected_witness :
  let s'' := submit (submit Scenario.lee) in
  message (submit Scenario.lee) = "Form submitted successfully!" ∧
  message s'' = "Please fill out all required fields." ∧
  progress s'' = progress Scenario.lee ∧
  ∀ field, field ∈ apiResponses userInformation → required field = true →
           errors s'' !! name field = Some (label field ++ " is required").
Proof.
  apply (submit_after_success_rejected userInformation Scenario.lee).
  - vm_compute. reflexivity.
  - apply all_required_filled_iff. vm_compute. reflexivity.
Defined.

(** ** What every reachable state satisfies *)

(** X8. In every reachable state the active field-set is empty (nothing
    selected yet) or exactly one entry of the catalogue; in particular no
    two of its fields share a name. *)
Theorem fields_from_catalog (s : State) :
  reachable s →
  (fields s = [] ∨ ∃ t, fields s = apiResponses t) ∧
  NoDup (name <$> fields s).
Proof.
  intros Hinv%reachable_invariant.
  split; [apply (inv_fields _ Hinv)|by apply invariant_NoDup].
Qed.

Lemma fields_from_catalog_witness :
  (fields Scenario.lee = [] ∨ ∃ t, fields Scenario.lee = apiResponses t) ∧
  NoDup (name <$> fields Scenario.lee).
Proof.
  apply (fields_from_catalog Scenario.lee).
  apply reachable_input; [apply reachable_input|].
  - apply reachable_select, reachable_initial.
  - apply (bool_decide_unpack _). vm_compute. exact I.
  - apply (bool_decide_unpack _). vm_compute. exact I.
Defined.

Lemma errors_justified_empty s : errors s = ∅ → errors_justified s.
Proof. intros He k m Hk. by rewrite He, lookup_empty in Hk. Qed.

Lemma errors_justified_setFieldValue n value s :
  errors_justified s → errors_justified (setFieldValue n value s).
Proof.
  intros Hjust k m. rewrite setFieldValue_eq. cbn [errors fields formData].
  destruct (decide (k = n)) as [->|Hne].
  - unfold validateField_newErrors. rewrite lookup_insert_eq.
    destruct (find_field (fields s) n) as [field|] eqn:Hfind.
    + destruct (required field) eqn:Hreq; simpl.
      * case_bool_decide as Hvalue.
        -- rewrite lookup_insert_eq. intros [= <-].
           apply find_field_Some in Hfind as [Hin Hname].
           split; [by exists field|]. right. by rewrite Hvalue.
        -- by rewrite lookup_delete_eq.
      * by rewrite lookup_delete_eq.
    + by rewrite lookup_delete_eq.
  - rewrite validateField_newErrors_ne, lookup_insert_ne by done. apply Hjust.
Qed.

Lemma errors_justified_submit s :
  errors_justified s → errors_justified (submit s).
Proof.
  intros Hjust. destruct (all_required_filled_dec s) as [Hall|Hnot].
  - rewrite (submit_filled _ Hall). by apply errors_justified_empty.
  - rewrite (submit_not_filled _ Hnot). intros k m. cbn [errors fields formData].
    set (queued := filter (λ field, missing (formData s) field) (fields s)).
    destruct (decide (k ∈ name <$> queued)) as [Hin|Hout].
    + destruct (submit_errors_lookup_queued _ _ (errors s) Hin)
        as (g & Hg & <- & ->).
      intros [= <-]. apply list_elem_of_filter in Hg as [Hmiss Hg].
      apply Is_true_true, missing_iff in Hmiss as [Hreq Hempty].
      split; [by exists g|done].
    + rewrite submit_errors_lookup_fresh by done. apply Hjust.
Qed.

Lemma reachable_errors_justified s : reachable s → errors_justified s.
Proof.
  induction 1 as [|formType s _ IH|n value s _ IH Hn|s _ IH].
  - by apply errors_justified_empty.
  - destruct (apiResponses_get formType) as [fs|] eqn:Hget.
    + rewrite (selectFormType_known _ _ _ Hget). by apply errors_justified_empty.
    + by rewrite (selectFormType_unknown _ _ Hget).
  - by apply errors_justified_setFieldValue.
  - by apply errors_justified_submit.
Qed.

(** X9. In every reachable state each entry of ValidationErrors is the
    "<label> is required" message of a required field of the active
    field-set carrying the entry's name, and the value stored for that
    field is absent or empty.  So a field that is not required never has an
    error, and no stored message is empty. *)
Theorem errors_only_required_empty (s : State) (k m : string) :
  reachable s → errors s !! k = Some m →
  (∃ field, field ∈ fields s ∧ name field = k ∧ required field = true ∧
            m = label field ++ " is required") ∧
  (formData s !! k = None ∨ formData s !! k = Some "") ∧
  m ≠ "".
Proof.
  intros Hjust%reachable_errors_justified Hk.
  destruct (Hjust k m Hk) as [(field & Hin & Hname & Hreq & ->) Hempty].
  split; [by exists field|]. split; [done|].
  pose proof (required_message_truthy field) as Htruthy.
  apply truthy_Some_iff in Htruthy as (x & [= <-] & Hx). done.
Qed.

Lemma errors_only_required_empty_witness :
  (∃ field, field ∈ fields Scenario.rejected ∧ name field = "cvv" ∧
            required field = true ∧ "CVV is required" = label field ++ " is required") ∧
  (formData Scenario.rejected !! "cvv" = None ∨
   formData Scenario.rejected !! "cvv" = Some "") ∧
  "CVV is required" ≠ "".
Proof.
  apply (errors_only_required_empty Scenario.rejected "cvv" "CVV is required").
  - apply reachable_submit, reachable_select, reachable_initial.
  - vm_compute. reflexivity.
Defined.

(** X10. Live validation is exact on the fields that have an entry: in
    every reachable state a required field whose stored value is empty
    carries its "<label> is required" message, and one whose stored value
    is not empty carries no error. *)
Theorem touched_required_flagged_iff_empty (s : State) (field : Field) (v : string) :
  reachable s → field ∈ fields s → required field = true →
  formData s !! name field = Some v →
  (v = "" → errors s !! name field = Some (label field ++ " is required")) ∧
  (v ≠ "" → errors s !! name field = None).
Proof.
  intros Hreach Hin Hreq Hv.
  pose proof (reachable_invariant _ Hreach) as Hinv.
  pose proof (reachable_errors_justified _ Hreach) as Hjust.
  split.
  - intros ->. pose proof (inv_flagged _ Hinv field Hin Hreq Hv) as Htruthy.
    apply truthy_Some_iff in Htruthy as (m & Hm & _).
    destruct (Hjust _ _ Hm) as [(g & Hg & Hname & _ & ->) _].
    assert (g = field) as ->
      by exact (NoDup_name_inj _ _ _ (invariant_NoDup _ Hinv) Hg Hin Hname).
    exact Hm.
  - intros Hne. destruct (errors s !! name field) as [m|] eqn:Hm; [|done].
    destruct (Hjust _ _ Hm) as [_ [Hnone|Hempty]]; congruence.
Qed.

Lemma touched_required_flagged_iff_empty_witness :
  ("Ann" = "" → errors Scenario.ann !! "firstName" = Some "First Name is required") ∧
  ("Ann" ≠ "" → errors Scenario.ann !! "firstName" = None).
Proof.
  apply (touched_required_flagged_iff_empty Scenario.ann
           (mkField "firstName" "text" "First Name" true None) "Ann").
  - apply reachable_input; [apply reachable_select, reachable_initial|].
    apply (bool_decide_unpack _). vm_compute. exact I.
  - replace (fields Scenario.ann) with (apiResponses userInformation)
      by (vm_compute; reflexivity).
    simpl. left.
  - reflexivity.
  - vm_compute. reflexivity.
Defined.

(** X11. In every reachable state in which all required fields have a
    non-empty value, ValidationErrors is empty: a form that [submit] would
    accept shows no error. *)
Theorem filled_form_has_no_errors (s : State) :
  reachable s → all_required_filled s → errors s = ∅.
Proof.
  intros Hjust%reachable_errors_justified Hall.
  apply map_eq. intros k. rewrite lookup_empty.
  destruct (errors s !! k) as [m|] eqn:Hm; [|done].
  destruct (Hjust _ _ Hm) as [(field & Hin & <- & Hreq & _) Hempty].
  destruct (Hall field Hin Hreq) as (v & Hv & Hne).
  destruct Hempty; congruence.
Qed.

Lemma filled_form_has_no_errors_witness : errors Scenario.lee = ∅.
Proof.
  apply (filled_form_has_no_errors Scenario.lee).
  - apply reachable_input; [apply reachable_input|].
    + apply reachable_select, reachable_initial.
    + apply (bool_decide_unpack _). vm_compute. exact I.
    + apply (bool_decide_unpack _). vm_compute. exact I.
  - apply all_required_filled_iff. vm_compute. reflexivity.
Defined.

(** ** The range of Progress *)

Lemma completedFields_le_fields s newErrors :
  invariant s → (completedFields (formData s) newErrors ≤ length (fields s))%nat.
Proof.
  intros Hinv. unfold completedFields.
  etrans; [apply length_filter|].
  rewrite <- (length_fmap name (fields s)).
  apply submseteq_length, NoDup_submseteq.
  - apply NoDup_fst_map_to_list.
  - intros k Hk%elem_of_Object_keys. by apply (inv_values _ Hinv).
Qed.

Lemma js_progress_bound (c r l : nat) :
  (0 < r)%nat → (c ≤ l)%nat →
  ∃ q, js_mul100 (js_div c r) = Num q ∧ (0 <= q)%Q ∧
       (q * inject_Z (Z.of_nat r) <= 100 * inject_Z (Z.of_nat l))%Q.
Proof.
  intros Hr Hc. destruct (js_progress_value c r Hr) as (q & Hq & Heq & Hpos).
  exists q. split; [done|]. split; [done|].
  assert (0 < inject_Z (Z.of_nat r))%Q as Hrq.
  { unfold inject_Z, Qlt. simpl. lia. }
  assert (q * inject_Z (Z.of_nat r) == 100 * inject_Z (Z.of_nat c))%Q as ->.
  { rewrite Heq. field. intros Hzero. rewrite Hzero in Hrq.
    by apply Qlt_irrefl in Hrq. }
  apply Qmult_le_l; [done|]. rewrite <- Zle_Qle. lia.
Qed.

Lemma progress_in_range_zero s :
  progress s = Num 0 → progress_in_range s.
Proof.
  intros Hzero. exists 0%Q. split; [done|]. split; [done|]. split; [|done].
  rewrite Qmult_0_l. apply Qmult_le_0_compat; [done|].
  unfold inject_Z, Qle. simpl. lia.
Qed.

Lemma reachable_progress_in_range s : reachable s → progress_in_range s.
Proof.
  induction 1 as [|formType s _ IH|n value s Hs IH Hn|s _ IH].
  - by apply progress_in_range_zero.
  - apply progress_in_range_zero.
    destruct (apiResponses_get formType) as [fs|] eqn:Hget.
    + by rewrite (selectFormType_known _ _ _ Hget).
    + by rewrite (selectFormType_unknown _ _ Hget).
  - pose proof (reachable_invariant _ Hs) as Hinv.
    destruct (js_progress_bound
                (completedFields (formData s) (errors (setFieldValue n value s)))
                (requiredFields (fields s)) (length (fields s)))
      as (q & Hq & Hpos & Hbound).
    + by apply (invariant_required _ n).
    + by apply completedFields_le_fields.
    + exists q. rewrite progress_setFieldValue.
      split; [done|]. split; [done|]. split; [done|].
      intros Hnil. change (fields (setFieldValue n value s)) with (fields s) in Hnil.
      rewrite Hnil in Hn. by apply elem_of_nil in Hn.
  - destruct IH as (q & Hq & Hpos & Hbound & Hnil).
    exists q. by rewrite progress_submit, fields_submit.
Qed.

(** X12. In every reachable state Progress is a finite number, never [NaN]
    or [Infinity]; it is at least 0, at most 100 times the number of fields
    of the active field-set divided by its number of required fields, and
    hence never more than 150.  (It can exceed 100 because fields that are
    not required are counted as completed too.) *)
Theorem progress_finite_bounded (s : State) :
  reachable s →
  ∃ q, progress s = Num q ∧ (0 <= q)%Q ∧
       (q * inject_Z (Z.of_nat (requiredFields (fields s)))
        <= 100 * inject_Z (Z.of_nat (length (fields s))))%Q ∧
       (q <= 150)%Q.
Proof.
  intros Hreach.
  destruct (reachable_progress_in_range _ Hreach) as (q & Hq & Hpos & Hbound & Hnil).
  exists q. split; [done|]. split; [done|]. split; [done|].
  destruct (inv_fields _ (reachable_invariant _ Hreach)) as [Hf|[t Hf]].
  - by rewrite (Hnil Hf).
  - rewrite Hf in Hbound. destruct t.
    + change (q * 2 <= 100 * 3)%Q in Hbound. lra.
    + change (q * 3 <= 100 * 4)%Q in Hbound. lra.
    + change (q * 4 <= 100 * 4)%Q in Hbound. lra.
Qed.

Lemma progress_finite_bounded_witness :
  ∃ q, progress Scenario.aged_again = Num q ∧ (0 <= q)%Q ∧
       (q * inject_Z (Z.of_nat (requiredFields (fields Scenario.aged_again)))
        <= 100 * inject_Z (Z.of_nat (length (fields Scenario.aged_again))))%Q ∧
       (q <= 150)%Q.
Proof.
  apply (progress_finite_bounded Scenario.aged_again).
  repeat (apply reachable_input;
          [|apply (bool_decide_unpack _); vm_compute; exact I]).
  apply reachable_select, reachable_initial.
Defined.

(** ** The view *)

Lemma view_form_render s :
  fields s ≠ [] → view_form (render s) = Some (render_field s <$> fields s).
Proof.
  intros Hne. unfold render. cbn [view_form].
  rewrite bool_decide_eq_true_2; [done|].
  destruct (fields s); [done|simpl; lia].
Qed.

Lemma and_paragraph_truthy m : m ≠ "" → and_paragraph (Some m) = Some m.
Proof.
  intros Hm. unfold and_paragraph.
  assert (truthy (Some m) = true) as -> by (apply truthy_Some_iff; eauto).
  done.
Qed.

Lemma or_empty_Some v : or_empty (Some v) = v.
Proof.
  unfold or_empty, truthy. case_bool_decide as Hv; simpl; [by rewrite Hv|done].
Qed.

Lemma or_empty_eq_empty v :
  or_empty v = "" ↔ v = None ∨ v = Some "".
Proof.
  destruct v as [x|].
  - rewrite or_empty_Some. split; [intros ->; by right|by intros [|[= ->]]].
  - split; [by left|done].
Qed.

(** X13. Right after a catalogue type is selected, whatever the state
    before, the view shows the form with one control per descriptor of the
    catalogue entry, in order, with its name, label and required marker;
    every control shows an empty value and no error line, the progress bar
    has width 0, the readout is 0, and there is no status line. *)
Theorem render_after_select (t : FormType) (s : State) :
  let v := render (selectFormType (FormType_key t) s) in
  (∃ fvs, view_form v = Some fvs ∧
          view_name <$> fvs = name <$> apiResponses t ∧
          view_label <$> fvs = label <$> apiResponses t ∧
          view_marker <$> fvs = required <$> apiResponses t ∧
          Forall (λ fv, view_value fv = "" ∧ view_error fv = None) fvs) ∧
  view_width v = Num 0 ∧
  view_percent v = Num 0 ∧
  view_message v = None.
Proof.
  intros v. subst v.
  rewrite (selectFormType_known _ _ s (apiResponses_get_key t)).
  set (s' := mkState (apiResponses t) ∅ ∅ (Num 0) "").
  split; [|done].
  exists (render_field s' <$> apiResponses t). split.
  { apply (view_form_render s'). by destruct t. }
  rewrite <- !list_fmap_compose. split; [done|]. split; [done|]. split; [done|].
  apply Forall_fmap, Forall_forall. intros field _. simpl.
  by rewrite !lookup_empty.
Qed.

(** X14. After an input change on a name of the active field-set the form
    is displayed, it has a control with that name, and every control with
    that name shows exactly the value entered. *)
Theorem render_shows_entered_value (s : State) (n value : string) :
  n ∈ name <$> fields s →
  ∃ fvs, view_form (render (setFieldValue n value s)) = Some fvs ∧
         (∃ fv, fv ∈ fvs ∧ view_name fv = n) ∧
         (∀ fv, fv ∈ fvs → view_name fv = n → view_value fv = value).
Proof.
  intros Hn. set (s' := setFieldValue n value s).
  exists (render_field s' <$> fields s'). split; [|split].
  - apply view_form_render. change (fields s') with (fields s).
    intros Hnil. rewrite Hnil in Hn. by apply elem_of_nil in Hn.
  - apply list_elem_of_fmap in Hn as (field & -> & Hin).
    exists (render_field s' field). split; [|done].
    by apply list_elem_of_fmap_2.
  - intros fv (field & -> & Hin)%list_elem_of_fmap Hname.
    cbn in Hname. cbn [render_field view_value]. rewrite Hname.
    subst s'. rewrite setFieldValue_eq. cbn [formData].
    by rewrite lookup_insert_eq, or_empty_Some.
Qed.

Lemma render_shows_entered_value_witness :
  formData Scenario.lee !! "firstName" = Some "Ann" ∧
  (∃ fvs, view_form (render (setFieldValue "firstName" "Bob" Scenario.lee)) = Some fvs ∧
          (∃ fv, fv ∈ fvs ∧ view_name fv = "firstName") ∧
          (∀ fv, fv ∈ fvs → view_name fv = "firstName" → view_value fv = "Bob")) ∧
  (∃ fvs, view_form (render (setFieldValue "firstName" "" Scenario.lee)) = Some fvs ∧
          (∃ fv, fv ∈ fvs ∧ view_name fv = "firstName") ∧
          (∀ fv, fv ∈ fvs → view_name fv = "firstName" → view_value fv = "")).
Proof.
  split; [vm_compute; reflexivity|]. split.
  - apply (render_shows_entered_value Scenario.lee "firstName" "Bob").
    apply (bool_decide_unpack _). vm_compute. exact I.
  - apply (render_shows_entered_value Scenario.lee "firstName" "").
    apply (bool_decide_unpack _). vm_compute. exact I.
Defined.

(** X15. In every reachable state the error line of a control is exactly
    the entry ValidationErrors has for the control's name (no entry is
    suppressed for being empty), and a line that is shown reads
    "<label> is required" with the control's own label, under a control
    that carries the required marker. *)
Theorem render_error_lines (s : State) (fvs : list FieldView) (fv : FieldView) :
  reachable s → view_form (render s) = Some fvs → fv ∈ fvs →
  view_error fv = errors s !! view_name fv ∧
  (∀ m, view_error fv = Some m →
        m = view_label fv ++ " is required" ∧ view_marker fv = true).
Proof.
  intros Hreach Hform Hfv.
  pose proof (reachable_invariant _ Hreach) as Hinv.
  pose proof (reachable_errors_justified _ Hreach) as Hjust.
  unfold render in Hform. cbn [view_form] in Hform.
  case_bool_decide; [|discriminate Hform]. injection Hform as <-.
  apply list_elem_of_fmap in Hfv as (field & -> & Hin).
  cbn [render_field view_error view_name view_label view_marker].
  destruct (errors s !! name field) as [m|] eqn:Hm.
  - destruct (Hjust _ _ Hm) as [(g & Hg & Hname & Hreq & ->) _].
    assert (g = field) as ->
      by exact (NoDup_name_inj _ _ _ (invariant_NoDup _ Hinv) Hg Hin Hname).
    assert (and_paragraph (Some (required_message field)) =
            Some (required_message field)) as ->.
    { apply and_paragraph_truthy.
      pose proof (required_message_truthy field) as Ht.
      by apply truthy_Some_iff in Ht as (x & [= <-] & Hx). }
    split; [done|]. by intros m [= <-].
  - split; [done|]. intros m Habs. discriminate Habs.
Qed.

Lemma render_error_lines_witness :
  let fv := mkFieldView "cvv" "CVV" true (InputControl "password") ""
                        (Some "CVV is required") in
  view_error fv = errors Scenario.rejected !! view_name fv ∧
  (∀ m, view_error fv = Some m →
        m = view_label fv ++ " is required" ∧ view_marker fv = true).
Proof.
  apply (render_error_lines Scenario.rejected
           (render_field Scenario.rejected <$> fields Scenario.rejected)).
  - apply reachable_submit, reachable_select, reachable_initial.
  - vm_compute. reflexivity.
  - replace (render_field Scenario.rejected <$> fields Scenario.rejected)
      with [mkFieldView "cardNumber" "Card Number" true (InputControl "text") ""
              (Some "Card Number is required");
            mkFieldView "expiryDate" "Expiry Date" true (InputControl "date") ""
              (Some "Expiry Date is required");
            mkFieldView "cvv" "CVV" true (InputControl "password") ""
              (Some "CVV is required");
            mkFieldView "cardholderName" "Cardholder Name" true (InputControl "text") ""
              (Some "Cardholder Name is required")]
      by (vm_compute; reflexivity).
    right. right. left.
Defined.

(** X16. After a rejected submission in a reachable state, every control
    that carries the required marker and shows an empty value has the line
    "<label> is required" under it, with its own label. *)
Theorem render_rejected_submit (s : State) :
  reachable s → ¬ all_required_filled s →
  ∃ fvs, view_form (render (submit s)) = Some fvs ∧
         view_message (render (submit s)) =
           Some "Please fill out all required fields." ∧
         ∀ fv, fv ∈ fvs → view_marker fv = true → view_value fv = "" →
               view_error fv = Some (view_label fv ++ " is required").
Proof.
  intros Hreach Hnot.
  pose proof (invariant_NoDup _ (reachable_invariant _ Hreach)) as Hnd.
  exists (render_field (submit s) <$> fields (submit s)). split; [|split].
  - apply view_form_render. rewrite fields_submit. intros Hnil.
    apply Hnot. intros field Hin. rewrite Hnil in Hin.
    by apply elem_of_nil in Hin.
  - by rewrite (submit_not_filled _ Hnot).
  - intros fv (field & -> & Hin)%list_elem_of_fmap.
    cbn [render_field view_marker view_value view_error view_label].
    rewrite fields_submit in Hin.
    rewrite (submit_not_filled _ Hnot). cbn [formData errors].
    intros Hreq Hempty%or_empty_eq_empty.
    set (queued := filter (λ field, missing (formData s) field) (fields s)).
    assert (field ∈ queued) as Hq.
    { apply list_elem_of_filter. split; [|done].
      by apply Is_true_true, missing_iff. }
    destruct (submit_errors_lookup_queued _ _ (errors s)
                (list_elem_of_fmap_2 name _ _ Hq))
      as (g & Hg & Hname & ->).
    apply list_elem_of_filter in Hg as [_ Hg].
    assert (g = field) as -> by exact (NoDup_name_inj _ _ _ Hnd Hg Hin Hname).
    apply and_paragraph_truthy.
    pose proof (required_message_truthy field) as Ht.
    by apply truthy_Some_iff in Ht as (x & [= <-] & Hx).
Qed.

Lemma render_rejected_submit_witness :
  ∃ fvs, view_form (render (submit Scenario.ann)) = Some fvs ∧
         view_message (render (submit Scenario.ann)) =
           Some "Please fill out all required fields." ∧
         ∀ fv, fv ∈ fvs → view_marker fv = true → view_value fv = "" →
               view_error fv = Some (view_label fv ++ " is required").
Proof.
  apply (render_rejected_submit Scenario.ann).
  - apply reachable_input; [apply reachable_select, reachable_initial|].
    apply (bool_decide_unpack _). vm_compute. exact I.
  - intros Hall%all_required_filled_iff. vm_compute in Hall. discriminate Hall.
Defined.

Lemma message_setFieldValues (edits : list (string * string)) s :
  message (foldl (λ st e, setFieldValue e.1 e.2 st) s edits) = message s.
Proof.
  revert s. induction edits as [|[n value] edits IH]; intros s; [done|].
  simpl. by rewrite IH.
Qed.

(** X17. Once [submit] has run, its status line stays through any sequence
    of input changes: the success message of an accepted submission is
    still displayed while the emptied form is being filled in again; only
    a form-type change removes it. *)
Theorem render_status_line_persists
    (s : State) (edits : list (string * string)) (formType : string) :
  let s' := foldl (λ st e, setFieldValue e.1 e.2 st) (submit s) edits in
  view_message (render s') = view_message (render (submit s)) ∧
  (view_message (render s') = Some "Form submitted successfully!" ∨
   view_message (render s') = Some "Please fill out all required fields.") ∧
  view_message (render (selectFormType formType s')) = None.
Proof.
  intros s'. subst s'. unfold render at 1 2 3 4. cbn [view_message].
  rewrite message_setFieldValues. split; [done|]. split.
  - destruct (all_required_filled_dec s) as [Hall|Hnot].
    + left. by rewrite (submit_filled _ Hall).
    + right. by rewrite (submit_not_filled _ Hnot).
  - destruct (apiResponses_get formType) as [fs|] eqn:Hget.
    + by rewrite (selectFormType_known _ _ _ Hget).
    + by rewrite (selectFormType_unknown _ _ Hget).
Qed.

(** X18. In every reachable state the number of the "% completed" readout
    is a whole number from 0 to 150, the nearest one to Progress, a tie
    going upwards. *)
Theorem render_percent_readout (s : State) :
  reachable s →
  ∃ q z, progress s = Num q ∧
         view_percent (render s) = Num (inject_Z z) ∧
         (0 ≤ z ≤ 150)%Z ∧
         (q - (1 # 2) < inject_Z z)%Q ∧ (inject_Z z <= q + (1 # 2))%Q.
Proof.
  intros Hreach.
  destruct (reachable_progress_in_range _ Hreach) as (q & Hq & Hpos & Hbound & Hnil).
  assert (q <= 150)%Q as Hmax.
  { destruct (inv_fields _ (reachable_invariant _ Hreach)) as [Hf|[t Hf]].
    - by rewrite (Hnil Hf).
    - rewrite Hf in Hbound. destruct t.
      + change (q * 2 <= 100 * 3)%Q in Hbound. lra.
      + change (q * 3 <= 100 * 4)%Q in Hbound. lra.
      + change (q * 4 <= 100 * 4)%Q in Hbound. lra. }
  exists q, (Qfloor (q + (1 # 2))). split; [done|].
  split; [unfold render; cbn [view_percent]; by rewrite Hq|].
  split; [split|split].
  - change 0%Z with (Qfloor 0). apply Qfloor_resp_le. lra.
  - change 150%Z with (Qfloor (150 + (1 # 2))). apply Qfloor_resp_le. lra.
  - pose proof (Qlt_floor (q + (1 # 2))) as Hlt.
    rewrite inject_Z_plus in Hlt. change (inject_Z 1) with 1%Q in Hlt. lra.
  - apply Qfloor_le.
Qed.

Lemma render_percent_readout_witness :
  ∃ q z, progress Scenario.aged_again = Num q ∧
         view_percent (render Scenario.aged_again) = Num (inject_Z z) ∧
         (0 ≤ z ≤ 150)%Z ∧
         (q - (1 # 2) < inject_Z z)%Q ∧ (inject_Z z <= q + (1 # 2))%Q.
Proof.
  apply (render_percent_readout Scenario.aged_again).
  repeat (apply reachable_input;
          [|apply (bool_decide_unpack _); vm_compute; exact I]).
  apply reachable_select, reachable_initial.
Defined.

(** ** The first edit of a field *)

Lemma completedFields_errors_agree data e e' :
  (∀ k, is_Some (data !! k) → e !! k = e' !! k) →
  completedFields data e = completedFields data e'.
Proof.
  intros Hagree. apply Nat.le_antisymm; apply completedFields_errors_le;
    intros k Hk; by rewrite (Hagree k Hk).
Qed.

(** X19. An input change on a field that has no entry in FormValues yet
    never counts that field, whatever value is entered: the Progress it
    writes is the one [updateProgress] computes from the FormValues and
    ValidationErrors of the state before the change. *)
Theorem first_edit_not_counted (s : State) (n value : string) :
  formData s !! n = None →
  progress (setFieldValue n value s) =
    js_mul100 (js_div (completedFields (formData s) (errors s))
                      (requiredFields (fields s))).
Proof.
  intros Hn. rewrite progress_setFieldValue, errors_setFieldValue.
  f_equal. f_equal. apply completedFields_errors_agree.
  intros k [v Hk]. apply validateField_newErrors_ne. congruence.
Qed.

Lemma first_edit_not_counted_witness :
  progress (setFieldValue "lastName" "Lee" Scenario.ann) =
    js_mul100 (js_div (completedFields (formData Scenario.ann) (errors Scenario.ann))
                      (requiredFields (fields Scenario.ann))).
Proof.
  apply (first_edit_not_counted Scenario.ann "lastName" "Lee").
  vm_compute. reflexivity.
Defined.

(** ** The model's exact numbers against binary64 *)

(** For every catalogue entry and every count of completed fields the
    field-set allows, the binary64 result of [(c / r) * 100] is a finite
    number that does not exceed the exact rational the model stores, and is
    within the rounding bound of it. *)
Lemma binary64_progress_catalog (t : FormType) (c : nat) :
  (c ≤ length (apiResponses t))%nat →
  ∃ b q, binary64_value (binary64_progress c (requiredFields (apiResponses t))) = Some b ∧
         js_mul100 (js_div c (requiredFields (apiResponses t))) = Num q ∧
         (0 <= b)%Q ∧ (b <= q)%Q ∧ within_rounding b q.
Proof.
  intros Hc.
  assert (c = 0 ∨ c = 1 ∨ c = 2 ∨ c = 3 ∨ c = 4)%nat as Hcases.
  { assert (length (apiResponses t) ≤ 4)%nat by (destruct t; simpl; lia). lia. }
  destruct t; destruct Hcases as [->|[->|[->|[->| ->]]]];
    try (simpl in Hc; lia);
    (eexists; eexists; split; [vm_compute; reflexivity|];
     split; [vm_compute; reflexivity|];
     split; [|split]; vm_compute; discriminate).
Qed.
